(** * ApiDocsPrinter: a shallow embedding of the docgen markdown renderer

    Source: [packages/docgen/src/docgen/ApiDocsPrinter.ts].

    The class [ApiDocPrinter] walks an [ApiDoc] model and drives a
    [MarkdownPrinter].  The embedding keeps that shape:

    - JavaScript strings are [string]s (sequences of code units), compared
      with [===] by decidable equality and with [<] by the lexicographic
      order on code units;
    - the emitting methods of the printer ([header], [paragraph], [text],
      [code]) are recorded as a list of [Call]s, which is what [toBuffer]
      hands back; the link-resolving methods are the fields of the class
      [MarkdownPrinter];
    - arrays of dependent types live in a [Store] and are addressed by
      reference, because [Array.prototype.sort] sorts in place: the only
      mutating primitive the source uses is applied to such an array. *)

From Stdlib Require Import String Ascii List Sorted Permutation OrderedTypeEx.
From stdpp Require Import base option list strings gmap sorting.

Set Default Proof Using "Type".

(** ** Data model ([./types], as used by the printer) *)

(** Modelled from the spec: the declarations of [./types] are not part of
    the source file; the fields below are the ones the printer reads,
    plus the identifier the data model gives every interface type.  A
    source location is what [srcLink] receives. *)
Record SrcRef := { file : string; lineInFile : nat }.

(** Modelled from the spec: a link is a reference to another entity's
    identifier. *)
Module TypeLink.
Record t := { id : string }.
End TypeLink.

(** Modelled from the spec: a dependent type has a name, an identifier, a
    path, documentation lines, a code snippet, outgoing links and a source
    location. *)
Module TypeInfo.
Record t := {
  id : string;
  name : string;
  path : string;
  docs : list string;
  text : string;
  links : list TypeLink.t;
  src : SrcRef }.
End TypeInfo.

(** [member.type === 'method'] separates callable members from data ones. *)
Inductive FieldKind := method | prop.

(** Modelled from the spec: a member has a name, a kind, a path,
    documentation lines, a signature and outgoing links. *)
Module FieldInfo.
Record t := {
  type : FieldKind;
  name : string;
  path : string;
  docs : list string;
  text : string;
  links : list TypeLink.t }.
End FieldInfo.

(** A reference to an array of dependent types held in the store. *)
Definition ref := positive.

(** Modelled from the spec: an interface type has an identifier, a name,
    a source location, members and dependent types.  The printer reads
    every field but the identifier. *)
Module InterfaceInfo.
Record t := {
  id : string;
  name : string;
  src : SrcRef;
  members : list FieldInfo.t;
  dependentTypes : ref }.
End InterfaceInfo.

(** Modelled from the spec: an API entry has an identifier, a raw name,
    a description, a source location and the interfaces it implements. *)
Module ApiDoc.
Record t := {
  id : string;
  name : string;
  description : string;
  src : SrcRef;
  interfaceInfos : list InterfaceInfo.t }.
End ApiDoc.

(** The element type of [[...apiType.members, ...apiType.dependentTypes]],
    and the argument of [printer.code]. *)
Inductive Entry :=
  | EField (m : FieldInfo.t)
  | EType (t : TypeInfo.t).

Definition entry_name (e : Entry) : string :=
  match e with EField m => FieldInfo.name m | EType t => TypeInfo.name t end.
Definition entry_path (e : Entry) : string :=
  match e with EField m => FieldInfo.path m | EType t => TypeInfo.path t end.
Definition entry_links (e : Entry) : list TypeLink.t :=
  match e with EField m => FieldInfo.links m | EType t => TypeInfo.links t end.

(** ** The output surface *)

(** One constructor per emitting method of [MarkdownPrinter]. *)
Inductive Call :=
  | Header (level : nat) (text : string) (id : option string)
  | Paragraph (text : list string)
  | Text (s : string)
  | Code (e : Entry).

Abbreviation Buffer := (list Call).

(** The link-resolving methods of the printer the factory hands out, with
    the arguments the printer passes them: [srcLink] takes a source
    location and an optional label, [headerLink] a header text and an
    anchor. *)
Class MarkdownPrinter := {
  srcLink : SrcRef → option string → string;
  pageLink : string → string;
  headerLink : string → string → string;
  indexLink : string }.

(** ** The store and the rendering monad *)

Abbreviation Store := (gmap ref (list TypeInfo.t)).

(** A rendering step reads and writes the store and appends calls to the
    printer. *)
Definition Render (A : Type) : Type := Store → A * list Call * Store.

#[global] Instance render_ret : MRet Render := λ A a σ, (a, [], σ).
#[global] Instance render_bind : MBind Render := λ A B f m σ,
  let '(a, w1, σ1) := m σ in
  let '(b, w2, σ2) := f a σ1 in
  (b, w1 ++ w2, σ2).

Definition emit (c : Call) : Render unit := λ σ, (tt, [c], σ).

Definition header (level : nat) (text : string) (id : option string) : Render unit :=
  emit (Header level text id).
Definition paragraph (text : list string) : Render unit := emit (Paragraph text).
Definition text (s : string) : Render unit := emit (Text s).
Definition code (e : Entry) : Render unit := emit (Code e).

(** [printer.toBuffer()] after running [m] on a fresh printer. *)
Definition toBuffer (m : Render unit) : Store → Buffer * Store :=
  λ σ, let '(_, w, σ') := m σ in (w, σ').

(** [for (const x of l) body]. *)
Fixpoint for_of {A} (l : list A) (body : A → Render unit) : Render unit :=
  match l with
  | [] => mret tt
  | x :: l' => body x ;; for_of l' body
  end.

(** ** Strings *)

(** [l.join(sep)]. *)
Fixpoint join (sep : string) (l : list string) : string :=
  match l with
  | [] => ""
  | x :: l' => match l' with [] => x | _ => x +:+ sep +:+ join sep l' end
  end.

(** [`${l}`] on an array: [Array.prototype.toString] joins with a comma. *)
Definition Array_toString (l : list string) : string := join "," l.

(** [strip_end marker s] is [Some p] when [s] is [p] followed by [marker]:
    the one place where [/marker$/] can match. *)
Fixpoint strip_end (marker s : string) : option string :=
  if String.eqb s marker then Some ""
  else match s with
       | EmptyString => None
       | String c s' => String c <$> strip_end marker s'
       end.

(** [s.replace(/marker$/, '')]. *)
Definition replace_end (marker s : string) : string :=
  default s (strip_end marker s).

(** [s] ends with [marker]. *)
Definition ends_with (marker s : string) : bool :=
  bool_decide (is_Some (strip_end marker s)).

(** ** Sorting *)

(** Modelled from the spec: [./sortSelector] is not part of the source
    file.  Given a key-extraction function it is a two-argument comparator
    ordering ascending by the extracted key, in the natural (lexicographic
    for text) order. *)
Definition sortSelector {T} (selector : T → string) (a b : T) : Z :=
  let aV := selector a in
  let bV := selector b in
  if String.ltb aV bV then (-1)%Z
  else if String.ltb bV aV then 1%Z
  else 0%Z.

Section stable_sort.
Context {T : Type} (cmp : T → T → Z).

(** [x] goes after every element it compares greater than, and before
    the first one it does not. *)
Fixpoint sort_insert (x : T) (l : list T) : list T :=
  match l with
  | [] => [x]
  | y :: l' => if (0 <? cmp x y)%Z then y :: sort_insert x l' else x :: y :: l'
  end.

(** The result of [Array.prototype.sort] with comparator [cmp], which
    is a stable sort. *)
Definition sorted_array (l : list T) : list T := foldr sort_insert [] l.
End stable_sort.

(** [a.slice()]: a fresh array with the elements of [a]. *)
Definition Array_slice (r : ref) : Render ref := λ σ,
  let r' := fresh (dom σ) in (r', [], <[r' := σ !!! r]> σ).

(** [a.sort(cmp)]: sorts the array [a] in place and returns it. *)
Definition Array_sort (cmp : TypeInfo.t → TypeInfo.t → Z) (r : ref) : Render ref := λ σ,
  (r, [], alter (sorted_array cmp) r σ).

(** Reading the elements of an array.  A reference that is not in the
    store reads as the empty array. *)
Definition Array_read (r : ref) : Render (list TypeInfo.t) := λ σ, (σ !!! r, [], σ).

(** ** The printer *)

Section ApiDocPrinter.
Context `{printer : MarkdownPrinter}.

Definition apiDisplayName (api : ApiDoc.t) : string :=
  replace_end "ApiRef" (ApiDoc.name api).

Definition printApiIndex (apiDocs : list ApiDoc.t) : Store → Buffer * Store :=
  toBuffer (
    header 1 "Backstage Core Utility APIs" None ;;
    paragraph [
      "The following is a list of all Utility APIs defined by `@backstage/core`.";
      "They are available to use by plugins and components, and can be accessed ";
      "using the `useApi` hook, also provided by `@backstage/core`.";
      "For more information, see https://github.com/backstage/backstage/blob/master/docs/api/utility-apis.md."
    ] ;;
    for_of apiDocs (λ api,
      header 3 (apiDisplayName api) (Some (ApiDoc.id api)) ;;
      paragraph [ApiDoc.description api] ;;
      let typeLinks :=
        map (λ i, "[" +:+ InterfaceInfo.name i +:+ "](" +:+
                  pageLink (InterfaceInfo.name i) +:+ ")")
            (ApiDoc.interfaceInfos api) in
      paragraph [
        "Implemented type" +:+ (if 1 <? length typeLinks then "s" else "") +:+ ": " +:+
        join ", " typeLinks
      ] ;;
      paragraph ["ApiRef: " +:+ srcLink (ApiDoc.src api) (Some (ApiDoc.name api))])).

Definition addInterfaceMembers (apiType : InterfaceInfo.t) : Render unit :=
  for_of (InterfaceInfo.members apiType) (λ member,
    header 3
      (FieldInfo.name member +:+
         match FieldInfo.type member with method => "()" | prop => "" end)
      (Some (FieldInfo.path member)) ;;
    for_of (FieldInfo.docs member) (λ doc, text doc) ;;
    code (EField member)).

Definition addInterfaceTypes (apiType : InterfaceInfo.t) : Render unit :=
  copy ← Array_slice (InterfaceInfo.dependentTypes apiType);
  sorted ← Array_sort (sortSelector TypeInfo.name) copy;
  types ← Array_read sorted;
  for_of types (λ type,
    header 3 (TypeInfo.name type) (Some (TypeInfo.path type)) ;;
    for_of (TypeInfo.docs type) (λ doc, text doc) ;;
    code (EType type) ;;
    paragraph ["Defined at " +:+ srcLink (TypeInfo.src type) None +:+ "."] ;;
    dependentTypes ← Array_read (InterfaceInfo.dependentTypes apiType);
    let usageLinks :=
      map (λ e, "[" +:+ entry_name e +:+ "](" +:+
                headerLink (entry_name e) (entry_path e) +:+ ")")
        (List.filter
           (λ member,
              existsb (λ link, bool_decide (TypeLink.id link = TypeInfo.id type))
                      (entry_links member))
           (map EField (InterfaceInfo.members apiType) ++ map EType dependentTypes)) in
    if 0 <? length usageLinks
    then paragraph ["Referenced by: " +:+ join ", " usageLinks +:+ "."]
    else mret tt).

Definition printInterface (apiType : InterfaceInfo.t) (apiDocs : list ApiDoc.t)
  : Store → Buffer * Store :=
  toBuffer (
    header 1 (InterfaceInfo.name apiType) None ;;
    paragraph [
      "The " +:+ InterfaceInfo.name apiType +:+ " type is defined at " +:+
      srcLink (InterfaceInfo.src apiType) None +:+ "."
    ] ;;
    let apiLinks :=
      map (λ ad,
             let link :=
               indexLink +:+ headerLink (apiDisplayName ad) (ApiDoc.id ad) in
             "[" +:+ ApiDoc.name ad +:+ "](" +:+ link +:+ ")")
        (List.filter
           (λ ad,
              existsb (λ i, bool_decide (InterfaceInfo.name i = InterfaceInfo.name apiType))
                      (ApiDoc.interfaceInfos ad))
           apiDocs) in
    (if length apiLinks =? 1
     then paragraph [
            "The following Utility API implements this type: " +:+ Array_toString apiLinks]
     else paragraph ["The following Utility APIs implement this type:"] ;;
          for_of apiLinks (λ link, text ("  - " +:+ link))) ;;
    header 2 "Members" None ;;
    addInterfaceMembers apiType ;;
    dependentTypes ← Array_read (InterfaceInfo.dependentTypes apiType);
    if 0 <? length dependentTypes
    then header 2 "Supporting types" None ;;
         paragraph [
           "These types are part of the API declaration, but may not be unique to this API."
         ] ;;
         addInterfaceTypes apiType
    else mret tt).
End ApiDocPrinter.

(** ** Observations on a rendered page *)

Definition is_heading (level : nat) (c : Call) : bool :=
  match c with Header l _ _ => l =? level | _ => false end.

(** The headings of a given level, in the order they were emitted. *)
Definition headings (level : nat) (buf : Buffer) : list Call :=
  List.filter (is_heading level) buf.

(** On an index page the title and the introduction come first and every
    entry emits four calls: the third call after the sub-heading position
    of entry [i] is its "Implemented type(s)" paragraph. *)
Definition implemented_paragraph (buf : Buffer) (i : nat) : option Call :=
  buf !! (2 + 4 * i + 2).

(** [s.startsWith(p)]. *)
Fixpoint starts_with (p s : string) : bool :=
  match p with
  | EmptyString => true
  | String a p' =>
    match s with
    | EmptyString => false
    | String b s' => Ascii.eqb a b && starts_with p' s'
    end
  end.

Definition singular_phrasing (c : Call) : bool :=
  match c with
  | Paragraph [s] => starts_with "Implemented type: " s
  | _ => false
  end.

Definition plural_phrasing (c : Call) : bool :=
  match c with
  | Paragraph [s] => starts_with "Implemented types: " s
  | _ => false
  end.

(** ** The relations of the specification *)

(** An API entry implements a type when one of its interfaces carries the
    type's name. *)
Definition implements_spec (apiType : InterfaceInfo.t) (a : ApiDoc.t) : Prop :=
  Exists (λ i, InterfaceInfo.name i = InterfaceInfo.name apiType)
         (ApiDoc.interfaceInfos a).

(** The same relation read on identifiers: the type's identifier is among
    the identifiers of the entry's interfaces. *)
Definition implements_by_id_spec (apiType : InterfaceInfo.t) (a : ApiDoc.t) : Prop :=
  InterfaceInfo.id apiType ∈ map InterfaceInfo.id (ApiDoc.interfaceInfos a).

#[global] Instance implements_spec_dec apiType a : Decision (implements_spec apiType a).
Proof. unfold implements_spec. apply _. Defined.

#[global] Instance implements_by_id_spec_dec apiType a :
  Decision (implements_by_id_spec apiType a).
Proof. unfold implements_by_id_spec. apply _. Defined.

(** An entry references a dependent type when one of its outgoing links
    carries the type's identifier. *)
Definition references_spec (type : TypeInfo.t) (e : Entry) : Prop :=
  Exists (λ link, TypeLink.id link = TypeInfo.id type) (entry_links e).

#[global] Instance references_spec_dec type e : Decision (references_spec type e).
Proof. unfold references_spec. apply _. Defined.

(** The members and dependent types of an interface, as one collection. *)
Definition entries_spec (members : list FieldInfo.t) (deps : list TypeInfo.t)
  : list Entry :=
  map EField members ++ map EType deps.

Definition name_le (a b : TypeInfo.t) : Prop :=
  String.leb (TypeInfo.name a) (TypeInfo.name b) = true.

Section page_layout.
Context `{printer : MarkdownPrinter}.

(** The link to an implementer: raw name as label, index page plus header
    fragment as target. *)
Definition implementer_link_spec (ad : ApiDoc.t) : string :=
  "[" +:+ ApiDoc.name ad +:+ "](" +:+
  (indexLink +:+ headerLink (apiDisplayName ad) (ApiDoc.id ad)) +:+ ")".

(** The two renderings of the implementer links. *)
Definition single_block_spec (link : string) : list Call :=
  [Paragraph ["The following Utility API implements this type: " +:+ link]].

Definition multi_block_spec (links : list string) : list Call :=
  Paragraph ["The following Utility APIs implement this type:"] ::
  map (λ link, Text ("  - " +:+ link)) links.

Definition implementer_block_spec (links : list string) : list Call :=
  match links with
  | [link] => single_block_spec link
  | _ => multi_block_spec links
  end.

(** The first two calls of an interface page. *)
Definition page_head_spec (apiType : InterfaceInfo.t) : list Call :=
  [Header 1 (InterfaceInfo.name apiType) None;
   Paragraph ["The " +:+ InterfaceInfo.name apiType +:+ " type is defined at " +:+
              srcLink (InterfaceInfo.src apiType) None +:+ "."]].

Definition member_calls_spec (m : FieldInfo.t) : list Call :=
  Header 3 (FieldInfo.name m +:+
            match FieldInfo.type m with method => "()" | prop => "" end)
         (Some (FieldInfo.path m)) ::
  map Text (FieldInfo.docs m) ++ [Code (EField m)].

Definition usage_link_spec (e : Entry) : string :=
  "[" +:+ entry_name e +:+ "](" +:+ headerLink (entry_name e) (entry_path e) +:+ ")".

(** The trailing paragraph of a dependent type: absent when nothing
    references the type. *)
Definition referenced_by_spec (referrers : list Entry) : list Call :=
  match referrers with
  | [] => []
  | _ => [Paragraph ["Referenced by: " +:+
                     join ", " (map usage_link_spec referrers) +:+ "."]]
  end.

Definition type_calls_spec (type : TypeInfo.t) : list Call :=
  Header 3 (TypeInfo.name type) (Some (TypeInfo.path type)) ::
  map Text (TypeInfo.docs type) ++
  [Code (EType type);
   Paragraph ["Defined at " +:+ srcLink (TypeInfo.src type) None +:+ "."]].

(** The calls rendered for the dependent types [deps] of an interface
    with members [members]: alphabetical order, each type followed by
    the entries that reference it. *)
Definition types_section_spec (members : list FieldInfo.t) (deps : list TypeInfo.t)
  : list Call :=
  flat_map
    (λ type, type_calls_spec type ++
             referenced_by_spec
               (filter (references_spec type) (entries_spec members deps)))
    (sorted_array (sortSelector TypeInfo.name) deps).

Definition supporting_types_spec (members : list FieldInfo.t) (deps : list TypeInfo.t)
  : list Call :=
  match deps with
  | [] => []
  | _ =>
    Header 2 "Supporting types" None ::
    Paragraph ["These types are part of the API declaration, but may not be unique to this API."] ::
    types_section_spec members deps
  end.

Definition index_head_spec : list Call :=
  [Header 1 "Backstage Core Utility APIs" None;
   Paragraph [
     "The following is a list of all Utility APIs defined by `@backstage/core`.";
     "They are available to use by plugins and components, and can be accessed ";
     "using the `useApi` hook, also provided by `@backstage/core`.";
     "For more information, see https://github.com/backstage/backstage/blob/master/docs/api/utility-apis.md."]].

Definition index_entry_spec (api : ApiDoc.t) : list Call :=
  let n := length (ApiDoc.interfaceInfos api) in
  [Header 3 (apiDisplayName api) (Some (ApiDoc.id api));
   Paragraph [ApiDoc.description api];
   Paragraph ["Implemented type" +:+ (if decide (n ≤ 1) then "" else "s") +:+ ": " +:+
              join ", " (map (λ i, "[" +:+ InterfaceInfo.name i +:+ "](" +:+
                                   pageLink (InterfaceInfo.name i) +:+ ")")
                             (ApiDoc.interfaceInfos api))];
   Paragraph ["ApiRef: " +:+ srcLink (ApiDoc.src api) (Some (ApiDoc.name api))]].
End page_layout.

(** ** A sample printer and a sample model *)

Module Sample.
#[export] Instance printer : MarkdownPrinter := {|
  srcLink := λ s label, "[" +:+ default (file s) label +:+ "](" +:+ file s +:+ ")";
  pageLink := λ n, "./" +:+ n +:+ ".md";
  headerLink := λ h id, "#" +:+ h +:+ "-" +:+ id;
  indexLink := "./README.md" |}.

Definition here : SrcRef := {| file := "src/apis.ts"; lineInFile := 1 |}.

Definition type_named (n : string) (refs : list string) : TypeInfo.t :=
  {| TypeInfo.id := n; TypeInfo.name := n; TypeInfo.path := "types." +:+ n;
     TypeInfo.docs := []; TypeInfo.text := "type " +:+ n;
     TypeInfo.links := map TypeLink.Build_t refs; TypeInfo.src := here |}.

Definition interface (id n : string) (r : ref) : InterfaceInfo.t :=
  {| InterfaceInfo.id := id; InterfaceInfo.name := n; InterfaceInfo.src := here;
     InterfaceInfo.members := []; InterfaceInfo.dependentTypes := r |}.

Definition api (id n : string) (ifaces : list InterfaceInfo.t) : ApiDoc.t :=
  {| ApiDoc.id := id; ApiDoc.name := n; ApiDoc.description := "d";
     ApiDoc.src := here; ApiDoc.interfaceInfos := ifaces |}.

Definition Foo : InterfaceInfo.t := interface "t1" "Foo" 1%positive.
Definition Bar : InterfaceInfo.t := interface "t3" "Bar" 2%positive.
(** Another type that is also called Foo. *)
Definition Foo' : InterfaceInfo.t := interface "t2" "Foo" 2%positive.

Definition fooApi : ApiDoc.t := api "x" "FooApiRef" [Foo].
Definition barApi : ApiDoc.t := api "y" "BarApiRef" [Bar; Foo].
Definition otherFooApi : ApiDoc.t := api "z" "OtherApiRef" [Foo'].
Definition bareApi : ApiDoc.t := api "w" "BareApiRef" [].

Definition zebra_apple_mango : list TypeInfo.t :=
  [type_named "Zebra" ["Apple"]; type_named "Apple" []; type_named "Mango" ["Apple"]].

Definition store : Store := {[ 1%positive := zebra_apple_mango ]}.
End Sample.

(** Record update of the raw name. *)
Definition renamed (api : ApiDoc.t) (n : string) : ApiDoc.t :=
  {| ApiDoc.id := ApiDoc.id api; ApiDoc.name := n;
     ApiDoc.description := ApiDoc.description api; ApiDoc.src := ApiDoc.src api;
     ApiDoc.interfaceInfos := ApiDoc.interfaceInfos api |}.

(** Record update of the identifier. *)
Definition with_id (apiType : InterfaceInfo.t) (id : string) : InterfaceInfo.t :=
  {| InterfaceInfo.id := id; InterfaceInfo.name := InterfaceInfo.name apiType;
     InterfaceInfo.src := InterfaceInfo.src apiType;
     InterfaceInfo.members := InterfaceInfo.members apiType;
     InterfaceInfo.dependentTypes := InterfaceInfo.dependentTypes apiType |}.

(** The raw text lines of a page, and the entries whose code it shows, in
    the order they were emitted. *)
Definition texts (buf : Buffer) : list string :=
  omap (λ c, match c with Text s => Some s | _ => None end) buf.

Definition codes (buf : Buffer) : list Entry :=
  omap (λ c, match c with Code e => Some e | _ => None end) buf.

(** The text of the sub-heading under which the printer shows an entry:
    callable members get the invocation marker. *)
Definition entry_heading_text (e : Entry) : string :=
  match e with
  | EField m =>
    FieldInfo.name m +:+ match FieldInfo.type m with method => "()" | prop => "" end
  | EType t => TypeInfo.name t
  end.


(** * Reasoning about the rendering monad *)

Lemma bind_run {A B} (m : Render A) (f : A → Render B) σ :
  (m ≫= f) σ =
  let '(a, w1, σ1) := m σ in let '(b, w2, σ2) := f a σ1 in (b, w1 ++ w2, σ2).
Proof. reflexivity. Qed.

Ltac run_render :=
  cbv beta iota delta
    [mbind render_bind mret render_ret header paragraph text code emit toBuffer].

(** A loop whose body only emits calls emits the calls of every round, in
    order, and leaves the store alone. *)
Lemma for_of_emits {A} (body : A → Render unit) (w : A → list Call) l σ :
  (∀ x, body x σ = (tt, w x, σ)) →
  for_of l body σ = (tt, flat_map w l, σ).
Proof.
  intros Hbody. induction l as [|x l IH]; [done|].
  cbn [for_of]. rewrite bind_run, Hbody. cbv beta iota. by rewrite IH.
Qed.

Lemma for_of_emit {A} (f : A → Call) l σ :
  for_of l (λ x, emit (f x)) σ = (tt, map f l, σ).
Proof.
  induction l as [|x l IH]; [done|].
  cbn [for_of]. rewrite bind_run. unfold emit at 1. cbv beta iota.
  by rewrite IH.
Qed.

Lemma for_of_text docs σ :
  for_of docs (λ doc, text doc) σ = (tt, map Text docs, σ).
Proof. apply (for_of_emit Text). Qed.

(** * Callbacks and predicates *)

Lemma filter_bool_decide {A} (P : A → Prop) `{!∀ x, Decision (P x)}
    (f : A → bool) (l : list A) :
  (∀ x, f x = bool_decide (P x)) → List.filter f l = filter P l.
Proof.
  intros Hf. induction l as [|x l IH]; [done|].
  simpl. rewrite filter_cons, Hf, IH.
  by destruct (decide (P x)) as [HP|HP];
    [rewrite bool_decide_eq_true_2|rewrite bool_decide_eq_false_2].
Qed.

Lemma existsb_bool_decide {A} (P : A → Prop) `{!∀ x, Decision (P x)}
    (l : list A) :
  existsb (λ x, bool_decide (P x)) l = bool_decide (Exists P l).
Proof.
  apply eq_true_iff_eq.
  rewrite existsb_exists, bool_decide_eq_true, Exists_exists.
  split; intros (x & Hx & HP); exists x.
  - by rewrite list_elem_of_In, <-(bool_decide_eq_true (P x)).
  - by rewrite <-list_elem_of_In, bool_decide_eq_true.
Qed.

Lemma usage_filter type (es : list Entry) :
  List.filter
    (λ member, existsb (λ link, bool_decide (TypeLink.id link = TypeInfo.id type))
                       (entry_links member)) es =
  filter (references_spec type) es.
Proof. apply filter_bool_decide. intros e. apply existsb_bool_decide. Qed.

Lemma implementers_filter apiType (apiDocs : list ApiDoc.t) :
  List.filter
    (λ ad, existsb (λ i, bool_decide (InterfaceInfo.name i = InterfaceInfo.name apiType))
                   (ApiDoc.interfaceInfos ad)) apiDocs =
  filter (implements_spec apiType) apiDocs.
Proof. apply filter_bool_decide. intros ad. apply existsb_bool_decide. Qed.

(** * The store after copying and sorting *)

Section store.
Implicit Types (σ : Store) (r : ref).

Lemma slice_sort_store cmp σ r :
  alter (sorted_array cmp) (fresh (dom σ)) (<[fresh (dom σ) := σ !!! r]> σ) =
  <[fresh (dom σ) := sorted_array cmp (σ !!! r)]> σ.
Proof. by rewrite alter_insert_eq. Qed.

Lemma fresh_lookup σ : σ !! fresh (dom σ) = None.
Proof. apply not_elem_of_dom, is_fresh. Qed.

(** Allocating the copy leaves every array of the store as it was. *)
Lemma insert_fresh_subseteq σ (l : list TypeInfo.t) : σ ⊆ <[fresh (dom σ) := l]> σ.
Proof. apply insert_subseteq, fresh_lookup. Qed.

Lemma insert_fresh_lookup_total cmp σ r :
  <[fresh (dom σ) := sorted_array cmp (σ !!! r)]> σ !!! r = σ !!! r.
Proof.
  destruct (decide (fresh (dom σ) = r)) as [<-|Hne].
  - rewrite lookup_total_insert_eq.
    by rewrite (lookup_total_alt σ), fresh_lookup.
  - by rewrite lookup_total_insert_ne.
Qed.
End store.

(** * The layout of the rendered pages *)

Section layout.
Context `{printer : MarkdownPrinter}.

Lemma printApiIndex_layout apiDocs σ :
  printApiIndex apiDocs σ = (index_head_spec ++ flat_map index_entry_spec apiDocs, σ).
Proof.
  unfold printApiIndex. run_render.
  rewrite (for_of_emits _ index_entry_spec); [done|].
  intros api. run_render. unfold index_entry_spec.
  rewrite length_map.
  by destruct (ApiDoc.interfaceInfos api) as [|i [|j l]].
Qed.

Lemma addInterfaceMembers_layout apiType σ :
  addInterfaceMembers apiType σ =
  (tt, flat_map member_calls_spec (InterfaceInfo.members apiType), σ).
Proof.
  unfold addInterfaceMembers. apply for_of_emits. intros m.
  run_render. by rewrite for_of_text.
Qed.

Lemma addInterfaceTypes_layout apiType σ :
  addInterfaceTypes apiType σ =
  (tt,
   types_section_spec (InterfaceInfo.members apiType)
     (σ !!! InterfaceInfo.dependentTypes apiType),
   <[fresh (dom σ) := sorted_array (sortSelector TypeInfo.name)
                        (σ !!! InterfaceInfo.dependentTypes apiType)]> σ).
Proof.
  unfold addInterfaceTypes.
  rewrite bind_run. unfold Array_slice at 1. cbv beta iota zeta.
  rewrite bind_run. unfold Array_sort at 1. cbv beta iota zeta.
  rewrite slice_sort_store.
  rewrite bind_run. unfold Array_read at 1. cbv beta iota zeta.
  rewrite lookup_total_insert_eq.
  unfold types_section_spec.
  rewrite (for_of_emits _
    (λ type, type_calls_spec type ++
             referenced_by_spec
               (filter (references_spec type)
                  (entries_spec (InterfaceInfo.members apiType)
                     (σ !!! InterfaceInfo.dependentTypes apiType))))); [done|].
  intros type. run_render. rewrite for_of_text.
  unfold Array_read. cbv beta iota zeta.
  rewrite insert_fresh_lookup_total, usage_filter, length_map.
  fold (entries_spec (InterfaceInfo.members apiType)
          (σ !!! InterfaceInfo.dependentTypes apiType)).
  unfold type_calls_spec, referenced_by_spec.
  destruct (filter _ _) as [|e es]; simpl; rewrite ?app_nil_r; [done|].
  by rewrite <-app_assoc.
Qed.

Lemma implementer_block_run (links : list string) σ :
  (if length links =? 1
   then paragraph
          ["The following Utility API implements this type: " +:+ Array_toString links]
   else paragraph ["The following Utility APIs implement this type:"] ;;
        for_of links (λ link, text ("  - " +:+ link))) σ
  = (tt, implementer_block_spec links, σ).
Proof.
  assert (Hitems : ∀ l : list string,
    for_of l (λ link, text ("  - " +:+ link)) σ =
    (tt, map (λ link, Text ("  - " +:+ link)) l, σ)).
  { intros l. apply (for_of_emit (λ link, Text ("  - " +:+ link))). }
  destruct links as [|l1 [|l2 links]].
  - cbn [length Nat.eqb]. rewrite bind_run. unfold paragraph at 1, emit.
    cbv beta iota zeta. by rewrite Hitems.
  - done.
  - cbn [length Nat.eqb]. rewrite bind_run. unfold paragraph at 1, emit.
    cbv beta iota zeta. by rewrite Hitems.
Qed.

Lemma printInterface_layout apiType apiDocs σ :
  let deps := σ !!! InterfaceInfo.dependentTypes apiType in
  printInterface apiType apiDocs σ =
  (page_head_spec apiType ++
   implementer_block_spec
     (map implementer_link_spec (filter (implements_spec apiType) apiDocs)) ++
   Header 2 "Members" None ::
   flat_map member_calls_spec (InterfaceInfo.members apiType) ++
   supporting_types_spec (InterfaceInfo.members apiType) deps,
   match deps with
   | [] => σ
   | _ => <[fresh (dom σ) := sorted_array (sortSelector TypeInfo.name) deps]> σ
   end).
Proof.
  intros deps. unfold printInterface, toBuffer.
  rewrite bind_run. unfold header at 1, emit. cbv beta iota zeta.
  rewrite bind_run. unfold paragraph at 1, emit. cbv beta iota zeta.
  rewrite implementers_filter. fold implementer_link_spec.
  rewrite bind_run, implementer_block_run. cbv beta iota zeta.
  rewrite bind_run. unfold header at 1, emit. cbv beta iota zeta.
  rewrite bind_run, addInterfaceMembers_layout. cbv beta iota zeta.
  rewrite bind_run. unfold Array_read at 1. cbv beta iota zeta. fold deps.
  unfold supporting_types_spec.
  destruct deps as [|d deps'] eqn:Hdeps.
  - done.
  - cbn [length Nat.ltb Nat.leb].
    rewrite bind_run. unfold header at 1, emit. cbv beta iota zeta.
    rewrite bind_run. unfold paragraph at 1, emit. cbv beta iota zeta.
    rewrite addInterfaceTypes_layout. fold deps. rewrite Hdeps.
    cbv beta iota zeta. done.
Qed.
End layout.

(** * Strings: suffixes *)

Section strings.
Implicit Types (s p q m : string).

Lemma string_app_cons c p q : String c p +:+ q = String c (p +:+ q).
Proof. reflexivity. Qed.

Lemma string_app_nil q : "" +:+ q = q.
Proof. reflexivity. Qed.

Lemma string_length_app p q :
  String.length (p +:+ q) = String.length p + String.length q.
Proof.
  induction p as [|c p IH]; [done|].
  rewrite string_app_cons. cbn [String.length]. by rewrite IH.
Qed.

Lemma string_app_assoc p q m : (p +:+ q) +:+ m = p +:+ (q +:+ m).
Proof.
  induction p as [|c p IH]; [done|].
  rewrite !string_app_cons. by f_equal.
Qed.

Lemma string_app_neq p m : m ≠ "" → p +:+ m ≠ p.
Proof.
  intros Hm Heq. apply (f_equal String.length) in Heq.
  rewrite string_length_app in Heq. destruct m; [done|].
  cbn [String.length] in Heq. lia.
Qed.

Lemma strip_end_unfold m s :
  strip_end m s =
  if String.eqb s m then Some ""
  else match s with
       | EmptyString => None
       | String c s' => String c <$> strip_end m s'
       end.
Proof. by destruct s. Qed.

Lemma strip_end_app m p : strip_end m (p +:+ m) = Some p.
Proof.
  induction p as [|c p IH]; rewrite strip_end_unfold.
  - rewrite string_app_nil. by rewrite String.eqb_refl.
  - destruct (String.eqb_spec (String c p +:+ m) m) as [Heq|_].
    + apply (f_equal String.length) in Heq.
      rewrite string_length_app in Heq. cbn [String.length] in Heq. lia.
    + rewrite string_app_cons. by rewrite IH.
Qed.

Lemma strip_end_Some m s p : strip_end m s = Some p → s = p +:+ m.
Proof.
  revert p. induction s as [|c s IH]; intros p; rewrite strip_end_unfold.
  - destruct (String.eqb_spec "" m) as [<-|_]; [|done]. by intros [= <-].
  - destruct (String.eqb_spec (String c s) m) as [<-|_]; [by intros [= <-]|].
    destruct (strip_end m s) as [p'|] eqn:Hs; [|done].
    intros [= <-]. rewrite string_app_cons. f_equal. by apply IH.
Qed.

Lemma ends_with_true m s : ends_with m s = true ↔ ∃ p, s = p +:+ m.
Proof.
  unfold ends_with. rewrite bool_decide_eq_true. split.
  - intros [p Hp]. exists p. by apply strip_end_Some.
  - intros [p ->]. rewrite strip_end_app. by eexists.
Qed.

Lemma ends_with_false m s : ends_with m s = false ↔ strip_end m s = None.
Proof.
  unfold ends_with. by rewrite bool_decide_eq_false, eq_None_not_Some.
Qed.

(** The marker is removed where it is present ... *)
Lemma replace_end_app m p : replace_end m (p +:+ m) = p.
Proof. unfold replace_end. by rewrite strip_end_app. Qed.

(** ... and the string is kept where it is not. *)
Lemma replace_end_keep m s : ends_with m s = false → replace_end m s = s.
Proof. rewrite ends_with_false. unfold replace_end. by intros ->. Qed.

Lemma replace_end_fixed m s :
  m ≠ "" → replace_end m s = s ↔ ends_with m s = false.
Proof.
  intros Hm. split; [|apply replace_end_keep].
  destruct (ends_with m s) eqn:He; [|done].
  apply ends_with_true in He as [p ->]. rewrite replace_end_app.
  intros Heq. by destruct (string_app_neq p m).
Qed.

(** What is left ends with the marker exactly when the marker was there
    twice. *)
Lemma ends_with_replace_end m s :
  ends_with m (replace_end m s) = ends_with (m +:+ m) s.
Proof.
  apply eq_true_iff_eq. rewrite !ends_with_true. split.
  - intros [p Hp]. destruct (ends_with m s) eqn:He.
    + apply ends_with_true in He as [q ->]. rewrite replace_end_app in Hp.
      exists p. by rewrite Hp, string_app_assoc.
    + rewrite (replace_end_keep _ _ He) in Hp.
      assert (ends_with m s = true) by (apply ends_with_true; eauto). congruence.
  - intros [p ->]. rewrite <-string_app_assoc, replace_end_app. eauto.
Qed.
End strings.

(** * Strings: the order used by the comparator *)

Section string_order.
Implicit Types (a b c : string).

Lemma string_ltb_antisym a b : String.ltb a b = true → String.ltb b a = false.
Proof.
  unfold String.ltb. rewrite (String.compare_antisym a b).
  by destruct (String.compare b a).
Qed.

Lemma string_leb_negb_ltb a b : String.leb a b = negb (String.ltb b a).
Proof.
  unfold String.leb, String.ltb. rewrite (String.compare_antisym a b).
  by destruct (String.compare b a).
Qed.

Lemma string_ltb_leb a b : String.ltb a b = true → String.leb a b = true.
Proof. unfold String.ltb, String.leb. by destruct (String.compare a b). Qed.

Lemma string_ltb_irrefl a : String.ltb a a = false.
Proof.
  unfold String.ltb. change (String.compare a a) with (String_as_OT.cmp a a).
  by rewrite (proj2 (String_as_OT.cmp_eq a a) eq_refl).
Qed.

Lemma string_leb_spec a b :
  String.leb a b = true ↔ a = b ∨ String_as_OT.lt a b.
Proof.
  rewrite <-String_as_OT.cmp_eq, <-String_as_OT.cmp_lt.
  unfold String.leb, String_as_OT.cmp.
  destruct (String.compare a b); intuition congruence.
Qed.

Lemma string_leb_trans a b c :
  String.leb a b = true → String.leb b c = true → String.leb a c = true.
Proof.
  rewrite !string_leb_spec. intros [->|Hab] [->|Hbc]; auto.
  right. by eapply String_as_OT.lt_trans.
Qed.
End string_order.

#[global] Instance name_le_trans : Transitive name_le.
Proof. intros a b c. apply string_leb_trans. Qed.

(** * Sorting with a key comparator *)

Section sorting.
Context {T : Type} (key : T → string).

Local Abbreviation cmp := (sortSelector key).
Local Abbreviation key_le := (λ x y, String.leb (key x) (key y) = true).

(** The comparator is positive exactly when its first argument has the
    greater key. *)
Lemma sortSelector_gt x y :
  (0 <? cmp x y)%Z = String.ltb (key y) (key x).
Proof.
  unfold sortSelector. destruct (String.ltb (key x) (key y)) eqn:Hxy.
  - by rewrite (string_ltb_antisym _ _ Hxy).
  - by destruct (String.ltb (key y) (key x)).
Qed.

Lemma sort_insert_perm x (l : list T) : sort_insert cmp x l ≡ₚ x :: l.
Proof.
  induction l as [|y l IH]; [done|]. simpl.
  destruct (0 <? cmp x y)%Z; [|done].
  rewrite IH. apply Permutation_swap.
Qed.

Lemma sorted_array_perm (l : list T) : sorted_array cmp l ≡ₚ l.
Proof.
  induction l as [|x l IH]; [done|]. simpl.
  by rewrite sort_insert_perm, IH.
Qed.

Lemma sort_insert_HdRel a x (l : list T) :
  String.leb (key a) (key x) = true →
  HdRel key_le a l → HdRel key_le a (sort_insert cmp x l).
Proof.
  intros Hax Hl. destruct l as [|y l]; simpl; [by constructor|].
  destruct (0 <? cmp x y)%Z; constructor; [|done].
  by inversion Hl.
Qed.

Lemma sort_insert_Sorted x (l : list T) :
  Sorted key_le l → Sorted key_le (sort_insert cmp x l).
Proof.
  induction 1 as [|y l Hl IH Hy]; simpl; [by repeat constructor|].
  rewrite sortSelector_gt. destruct (String.ltb (key y) (key x)) eqn:Hyx.
  - constructor; [done|]. apply sort_insert_HdRel; [|done].
    by apply string_ltb_leb.
  - repeat constructor; [done..|]. by rewrite string_leb_negb_ltb, Hyx.
Qed.

Lemma sorted_array_Sorted (l : list T) : Sorted key_le (sorted_array cmp l).
Proof.
  induction l as [|x l IH]; simpl; [constructor|].
  by apply sort_insert_Sorted.
Qed.

(** Insertion never moves an element past another one with the same key. *)
Lemma sort_insert_filter k x (l : list T) :
  filter (λ y, key y = k) (sort_insert cmp x l) = filter (λ y, key y = k) (x :: l).
Proof.
  induction l as [|y l IH]; [done|]. simpl.
  rewrite sortSelector_gt. destruct (String.ltb (key y) (key x)) eqn:Hyx; [|done].
  rewrite (filter_cons _ y), IH, !(filter_cons _ x), !(filter_cons _ y).
  destruct (decide (key x = k)) as [Hx|Hx], (decide (key y = k)) as [Hy|Hy]; try done.
  rewrite <-Hx in Hy. by rewrite Hy, string_ltb_irrefl in Hyx.
Qed.

Lemma sorted_array_stable k (l : list T) :
  filter (λ y, key y = k) (sorted_array cmp l) = filter (λ y, key y = k) l.
Proof.
  induction l as [|x l IH]; [done|]. simpl.
  by rewrite sort_insert_filter, !filter_cons, IH.
Qed.
End sorting.

Lemma sorted_by_name (l : list TypeInfo.t) :
  StronglySorted name_le (sorted_array (sortSelector TypeInfo.name) l).
Proof.
  apply Sorted_StronglySorted; [apply _|]. apply sorted_array_Sorted.
Qed.

(** * Headings of a page *)

Section headings.
Context `{printer : MarkdownPrinter}.

Lemma headings_app level (a b : Buffer) :
  headings level (a ++ b) = headings level a ++ headings level b.
Proof. apply List.filter_app. Qed.

Lemma headings_flat_map {A} level (f : A → list Call) (g : A → list Call) l :
  (∀ x, headings level (f x) = g x) →
  headings level (flat_map f l) = flat_map g l.
Proof.
  intros Hf. induction l as [|x l IH]; [done|].
  simpl. by rewrite headings_app, Hf, IH.
Qed.

Lemma headings_map_none {A} level (f : A → Call) l :
  (∀ x, is_heading level (f x) = false) → headings level (map f l) = [].
Proof.
  intros Hf. induction l as [|x l IH]; [done|].
  unfold headings in *. simpl. by rewrite Hf.
Qed.

Lemma flat_map_singleton {A B} (f : A → B) l : flat_map (λ x, [f x]) l = map f l.
Proof. induction l as [|x l IH]; [done|]. simpl. by rewrite IH. Qed.

Lemma flat_map_nil {A B} (l : list A) : flat_map (λ _, @nil B) l = [].
Proof. by induction l. Qed.

(** Every block has four calls: call [j] of block [i] sits at [4 * i + j]. *)
Lemma lookup_flat_map_4 {A} (f : A → list Call) (l : list A) i j x :
  (∀ y, length (f y) = 4) → l !! i = Some x → j < 4 →
  flat_map f l !! (4 * i + j) = f x !! j.
Proof.
  intros Hlen. revert i. induction l as [|y l IH]; intros i Hi Hj; [done|].
  cbn [flat_map]. destruct i as [|i]; simpl in Hi.
  - injection Hi as ->. rewrite lookup_app_l by (rewrite Hlen; lia).
    by replace (4 * 0 + j) with j by lia.
  - rewrite lookup_app_r by (rewrite Hlen; lia).
    rewrite Hlen. replace (4 * S i + j - 4) with (4 * i + j) by lia.
    by apply IH.
Qed.

Lemma headings3_index_entry api :
  headings 3 (index_entry_spec api) =
  [Header 3 (apiDisplayName api) (Some (ApiDoc.id api))].
Proof. done. Qed.

Lemma headings_implementer_block level links :
  headings level (implementer_block_spec links) = [].
Proof.
  destruct links as [|l1 [|l2 links]]; try done.
  all: unfold implementer_block_spec, multi_block_spec, headings.
  all: cbn [List.filter is_heading].
  all: by apply (headings_map_none level (λ link, Text ("  - " +:+ link))).
Qed.

Lemma headings2_members ms :
  headings 2 (flat_map member_calls_spec ms) = [].
Proof.
  rewrite (headings_flat_map 2 _ (λ _, [])), flat_map_nil; [done|].
  intros m. unfold member_calls_spec, headings. cbn [List.filter is_heading Nat.eqb].
  rewrite List.filter_app. fold (headings 2 (map Text (FieldInfo.docs m))).
  by rewrite headings_map_none.
Qed.

Lemma headings_type_calls level type :
  headings level (type_calls_spec type) =
  if level =? 3 then [Header 3 (TypeInfo.name type) (Some (TypeInfo.path type))] else [].
Proof.
  unfold type_calls_spec, headings. cbn [List.filter is_heading].
  rewrite List.filter_app. fold (headings level (map Text (TypeInfo.docs type))).
  rewrite headings_map_none by done. rewrite Nat.eqb_sym.
  by destruct (level =? 3).
Qed.

Lemma headings_referenced_by level es :
  headings level (referenced_by_spec es) = [].
Proof. by destruct es. Qed.

Lemma headings2_types ms deps : headings 2 (types_section_spec ms deps) = [].
Proof.
  unfold types_section_spec.
  rewrite (headings_flat_map 2 _ (λ _, [])), flat_map_nil; [done|].
  intros type. by rewrite headings_app, headings_type_calls, headings_referenced_by.
Qed.

Lemma headings3_types ms deps :
  headings 3 (types_section_spec ms deps) =
  map (λ type, Header 3 (TypeInfo.name type) (Some (TypeInfo.path type)))
      (sorted_array (sortSelector TypeInfo.name) deps).
Proof.
  unfold types_section_spec. rewrite <-flat_map_singleton.
  apply headings_flat_map.
  intros type. by rewrite headings_app, headings_type_calls, headings_referenced_by.
Qed.
End headings.

(** * Properties of the printer *)

Section properties.
Context `{printer : MarkdownPrinter}.

(** ** The index page *)

(** C7.  The index page has exactly one sub-heading per entry, in input
    order; each carries the entry's display name as text and the entry's
    identifier as anchor.  (This holds for the empty collection too.) *)
Theorem printApiIndex_sub_headings σ apiDocs :
  headings 3 (printApiIndex apiDocs σ).1 =
  map (λ api, Header 3 (apiDisplayName api) (Some (ApiDoc.id api))) apiDocs.
Proof.
  rewrite printApiIndex_layout. cbn [fst].
  rewrite headings_app, <-flat_map_singleton.
  by rewrite (headings_flat_map 3 _ _ _ headings3_index_entry).
Qed.

(** C3, as the printer has it.  The "Implemented type(s)" paragraph of an
    entry is phrased in the singular exactly when the entry implements at
    most one interface (none or one), and in the plural exactly when it
    implements two or more. *)
Theorem printApiIndex_pluralization σ apiDocs i api :
  apiDocs !! i = Some api →
  ∃ p, implemented_paragraph (printApiIndex apiDocs σ).1 i = Some p ∧
       (singular_phrasing p = true ↔ length (ApiDoc.interfaceInfos api) ≤ 1) ∧
       (plural_phrasing p = true ↔ 1 < length (ApiDoc.interfaceInfos api)).
Proof.
  intros Hi. rewrite printApiIndex_layout. cbn [fst].
  unfold implemented_paragraph.
  assert (Hp : (index_head_spec ++ flat_map index_entry_spec apiDocs) !! (2 + 4 * i + 2)
               = index_entry_spec api !! 2).
  { rewrite lookup_app_r by (simpl; lia).
    replace (2 + 4 * i + 2 - length index_head_spec) with (4 * i + 2)
      by (simpl; lia).
    apply lookup_flat_map_4; [done|done|lia]. }
  rewrite Hp. unfold index_entry_spec. cbn [lookup list_lookup].
  eexists. split; [reflexivity|].
  destruct (decide (length (ApiDoc.interfaceInfos api) ≤ 1)) as [Hn|Hn]; simpl.
  all: split; split; intros; try done; try lia.
Qed.

(** ** Display names *)

(** C2, as the printer has it.  The derivation removes one trailing
    marker: the display name of [name + marker] is [name], and a name is
    its own display name exactly when it has no trailing marker.  So the
    display names of [name + marker] and of [name] agree exactly when
    [name] has no trailing marker; and the display name of [name] is free
    of a trailing marker, equivalently is a fixed point of the derivation,
    exactly when [name] does not end with the marker twice. *)
Theorem apiDisplayName_strips_once api :
  let name := ApiDoc.name api in
  apiDisplayName (renamed api (name +:+ "ApiRef")) = name ∧
  (apiDisplayName api = name ↔ ends_with "ApiRef" name = false) ∧
  (apiDisplayName (renamed api (name +:+ "ApiRef")) = apiDisplayName api ↔
   ends_with "ApiRef" name = false) ∧
  (ends_with "ApiRef" (apiDisplayName api) = false ↔
   ends_with "ApiRefApiRef" name = false) ∧
  (apiDisplayName (renamed api (apiDisplayName api)) = apiDisplayName api ↔
   ends_with "ApiRefApiRef" name = false).
Proof.
  intros name. unfold apiDisplayName. cbn [renamed ApiDoc.name]. fold name.
  assert (Hm : "ApiRef" ≠ "") by done.
  rewrite replace_end_app, (replace_end_fixed "ApiRef" (replace_end _ _)) by done.
  rewrite ends_with_replace_end.
  split; [done|]. split; [by apply replace_end_fixed|].
  split; [|done]. rewrite <-(replace_end_fixed "ApiRef" name) by done.
  split; intros; done.
Qed.

(** ** The interface page: implementers *)

(** C1, as the printer has it.  The implementer links of an interface
    page are the links of exactly the entries that list an interface
    whose name equals the type's name, in the order of the collection. *)
Theorem printInterface_implementers σ apiType apiDocs :
  let implementers := filter (implements_spec apiType) apiDocs in
  (∃ rest,
     (printInterface apiType apiDocs σ).1 =
     page_head_spec apiType ++
     implementer_block_spec (map implementer_link_spec implementers) ++
     Header 2 "Members" None :: rest) ∧
  (∀ a, a ∈ implementers ↔
        a ∈ apiDocs ∧
        ∃ i, i ∈ ApiDoc.interfaceInfos a ∧
             InterfaceInfo.name i = InterfaceInfo.name apiType) ∧
  implementers `sublist_of` apiDocs.
Proof.
  intros implementers. split; [|split].
  - rewrite printInterface_layout. by eexists.
  - intros a. unfold implementers, implements_spec.
    by rewrite list_elem_of_filter, Exists_exists, (comm and).
  - apply sublist_filter.
Qed.

(** C4.  With [n] implementers the block between the source paragraph and
    the "Members" heading is: for [n = 0] the multi-style sentence alone,
    with no items; for [n = 1] the single-style sentence with the link
    inline; for [n >= 2] the multi-style sentence followed by one item
    per link.  The three cases exclude each other and cover every [n],
    and the page is produced in each of them. *)
Theorem printInterface_implementer_branches σ apiType apiDocs :
  let links := map implementer_link_spec (filter (implements_spec apiType) apiDocs) in
  let n := length (filter (implements_spec apiType) apiDocs) in
  ∃ block rest,
    (printInterface apiType apiDocs σ).1 =
    page_head_spec apiType ++ block ++ Header 2 "Members" None :: rest ∧
    ((n = 0 ∧
      block = [Paragraph ["The following Utility APIs implement this type:"]]) ∨
     (n = 1 ∧ ∃ link,
      links = [link] ∧
      block = [Paragraph ["The following Utility API implements this type: " +:+ link]]) ∨
     (2 ≤ n ∧
      block = Paragraph ["The following Utility APIs implement this type:"] ::
              map (λ link, Text ("  - " +:+ link)) links)).
Proof.
  intros links n. rewrite printInterface_layout. cbn [fst].
  eexists _, _. split; [reflexivity|]. fold links.
  assert (Hn : length links = n) by apply length_map.
  destruct links as [|l1 [|l2 links']]; simpl in Hn.
  - left. by rewrite <-Hn.
  - right; left. rewrite <-Hn. eauto.
  - right; right. rewrite <-Hn. split; [lia|done].
Qed.

(** C10.  In the single-implementer sentence and in every item of the
    multi-implementer list alike, the link of an implementer has the raw
    name as its label; the display name occurs only as the first argument
    of the header link, next to the identifier, inside the target. *)
Theorem printInterface_implementer_link_labels σ apiType apiDocs :
  let implementers := filter (implements_spec apiType) apiDocs in
  let link ad :=
    "[" +:+ ApiDoc.name ad +:+ "](" +:+
    (indexLink +:+ headerLink (apiDisplayName ad) (ApiDoc.id ad)) +:+ ")" in
  ∃ block rest,
    (printInterface apiType apiDocs σ).1 =
    page_head_spec apiType ++ block ++ Header 2 "Members" None :: rest ∧
    ((∃ ad, implementers = [ad] ∧
      block = [Paragraph ["The following Utility API implements this type: " +:+ link ad]]) ∨
     (length implementers ≠ 1 ∧
      block = Paragraph ["The following Utility APIs implement this type:"] ::
              map (λ ad, Text ("  - " +:+ link ad)) implementers)).
Proof.
  intros implementers link. rewrite printInterface_layout. cbn [fst].
  eexists _, _. split; [reflexivity|]. fold implementers.
  destruct implementers as [|a1 [|a2 l]].
  - right. by split.
  - left. by exists a1.
  - right. split; [done|]. unfold implementer_block_spec, multi_block_spec.
    cbn [map]. by rewrite map_map.
Qed.

(** ** The interface page: sections *)

(** C9.  The level-two headings of an interface page are "Members",
    always, followed by "Supporting types" exactly when the type has a
    dependent type: the first is there even without members. *)
Theorem printInterface_section_headings σ apiType apiDocs :
  let out := (printInterface apiType apiDocs σ).1 in
  let deps := σ !!! InterfaceInfo.dependentTypes apiType in
  headings 2 out =
    Header 2 "Members" None ::
    match deps with [] => [] | _ => [Header 2 "Supporting types" None] end ∧
  Header 2 "Members" None ∈ out ∧
  (Header 2 "Supporting types" None ∈ out ↔ deps ≠ []).
Proof.
  intros out deps.
  assert (Hh : headings 2 out =
    Header 2 "Members" None ::
    match deps with [] => [] | _ => [Header 2 "Supporting types" None] end).
  { unfold out. rewrite printInterface_layout. cbn [fst]. fold deps.
    rewrite !headings_app, headings_implementer_block.
    change (Header 2 "Members" None :: ?l) with ([Header 2 "Members" None] ++ l).
    rewrite !headings_app, headings2_members.
    unfold supporting_types_spec. destruct deps as [|d deps']; [done|].
    change (Header 2 "Supporting types" None :: ?p :: ?l)
      with ([Header 2 "Supporting types" None; p] ++ l).
    by rewrite headings_app, headings2_types. }
  assert (Hin : ∀ c, is_heading 2 c = true → c ∈ out ↔ c ∈ headings 2 out).
  { intros c Hc. unfold headings.
    rewrite !list_elem_of_In, List.filter_In. tauto. }
  split; [done|]. rewrite !Hin, Hh by done. split.
  - by left.
  - destruct deps; [|by split; [|intros _; right; left]].
    split; [|done]. by intros [=]%list_elem_of_singleton.
Qed.

(** ** The interface page: supporting types *)

(** C5.  Every dependent type is rendered with, as its last paragraph,
    the links of exactly those members and dependent types of the
    interface that have an outgoing link carrying its identifier; when
    there is none, the paragraph is left out. *)
Theorem addInterfaceTypes_referenced_by σ apiType :
  let members := InterfaceInfo.members apiType in
  let deps := σ !!! InterfaceInfo.dependentTypes apiType in
  let referrers type := filter (references_spec type) (entries_spec members deps) in
  (addInterfaceTypes apiType σ).1.2 =
    flat_map (λ type, type_calls_spec type ++ referenced_by_spec (referrers type))
             (sorted_array (sortSelector TypeInfo.name) deps) ∧
  ∀ type,
    (∀ e, e ∈ referrers type ↔
          (e ∈ map EField members ∨ e ∈ map EType deps) ∧
          ∃ link, link ∈ entry_links e ∧ TypeLink.id link = TypeInfo.id type) ∧
    (referenced_by_spec (referrers type) = [] ↔ referrers type = []) ∧
    (referenced_by_spec (referrers type) = [] ∨
     referenced_by_spec (referrers type) =
       [Paragraph ["Referenced by: " +:+
                   join ", " (map usage_link_spec (referrers type)) +:+ "."]]).
Proof.
  intros members deps referrers. split.
  { by rewrite addInterfaceTypes_layout. }
  intros type. split; [|split].
  - intros e. unfold referrers, entries_spec, references_spec.
    by rewrite list_elem_of_filter, elem_of_app, Exists_exists, (comm and).
  - by destruct (referrers type).
  - destruct (referrers type); [by left|by right].
Qed.

(** C6.  The dependent types are rendered in ascending order of their
    names, compared as sequences of code units, whatever order they
    arrive in: the rendered sequence is sorted, is a rearrangement of the
    input, and keeps types of equal name in their input order.  Types
    named Zebra, Apple, Mango are rendered as Apple, Mango, Zebra. *)
Theorem addInterfaceTypes_alphabetical σ apiType :
  let deps := σ !!! InterfaceInfo.dependentTypes apiType in
  let rendered := sorted_array (sortSelector TypeInfo.name) deps in
  headings 3 (addInterfaceTypes apiType σ).1.2 =
    map (λ type, Header 3 (TypeInfo.name type) (Some (TypeInfo.path type))) rendered ∧
  StronglySorted name_le rendered ∧
  rendered ≡ₚ deps ∧
  (∀ n, filter (λ type, TypeInfo.name type = n) rendered =
        filter (λ type, TypeInfo.name type = n) deps) ∧
  map TypeInfo.name
      (sorted_array (sortSelector TypeInfo.name) Sample.zebra_apple_mango) =
    ["Apple"; "Mango"; "Zebra"].
Proof.
  intros deps rendered. split; [|split; [|split; [|split]]].
  - rewrite addInterfaceTypes_layout. cbn [fst snd]. apply headings3_types.
  - apply sorted_by_name.
  - apply sorted_array_perm.
  - intros n. apply sorted_array_stable.
  - reflexivity.
Qed.

(** ** The input model *)

(** C8.  Rendering leaves the model as it found it.  The index page does
    not touch the store.  The interface page, and the rendering of its
    dependent types on its own, keep every array of the store with the
    elements it had, in the order it had them: sorting works on a fresh
    copy, so the dependent types of the interface read the same after the
    call as before. *)
Theorem render_preserves_model σ apiType apiDocs :
  (printApiIndex apiDocs σ).2 = σ ∧
  σ ⊆ (addInterfaceTypes apiType σ).2 ∧
  (addInterfaceTypes apiType σ).2 !!! InterfaceInfo.dependentTypes apiType =
    σ !!! InterfaceInfo.dependentTypes apiType ∧
  σ ⊆ (printInterface apiType apiDocs σ).2 ∧
  (printInterface apiType apiDocs σ).2 !!! InterfaceInfo.dependentTypes apiType =
    σ !!! InterfaceInfo.dependentTypes apiType.
Proof.
  rewrite printApiIndex_layout, addInterfaceTypes_layout, printInterface_layout.
  cbn [fst snd]. split; [done|]. split; [apply insert_fresh_subseteq|].
  split; [apply insert_fresh_lookup_total|].
  destruct (σ !!! InterfaceInfo.dependentTypes apiType) as [|d deps] eqn:Hdeps.
  - done.
  - split; [apply insert_fresh_subseteq|].
    rewrite <-Hdeps at 2. rewrite <-Hdeps. apply insert_fresh_lookup_total.
Qed.
End properties.

(** * Further properties of the printer *)

(** ** Observing texts, codes and membership *)

Section observers.
Lemma texts_app (a b : Buffer) : texts (a ++ b) = texts a ++ texts b.
Proof. apply omap_app. Qed.

Lemma codes_app (a b : Buffer) : codes (a ++ b) = codes a ++ codes b.
Proof. apply omap_app. Qed.

Lemma texts_flat_map {A} (f : A → list Call) (g : A → list string) l :
  (∀ x, texts (f x) = g x) → texts (flat_map f l) = flat_map g l.
Proof.
  intros Hf. induction l as [|x l IH]; [done|].
  simpl. by rewrite texts_app, Hf, IH.
Qed.

Lemma codes_flat_map {A} (f : A → list Call) (g : A → list Entry) l :
  (∀ x, codes (f x) = g x) → codes (flat_map f l) = flat_map g l.
Proof.
  intros Hf. induction l as [|x l IH]; [done|].
  simpl. by rewrite codes_app, Hf, IH.
Qed.

Lemma texts_map_Text l : texts (map Text l) = l.
Proof. induction l as [|x l IH]; [done|]. simpl. by rewrite IH. Qed.

Lemma codes_map_Text l : codes (map Text l) = [].
Proof. by induction l. Qed.

Lemma elem_of_flat_map_iff {A B} (f : A → list B) (l : list A) (y : B) :
  y ∈ flat_map f l ↔ ∃ x, x ∈ l ∧ y ∈ f x.
Proof.
  rewrite list_elem_of_In, in_flat_map.
  split; intros (x & Hx & Hy); exists x; by rewrite ?list_elem_of_In in *.
Qed.

Lemma elem_of_map_iff {A B} (f : A → B) (l : list A) (y : B) :
  y ∈ map f l ↔ ∃ x, y = f x ∧ x ∈ l.
Proof.
  rewrite list_elem_of_In, in_map_iff.
  split; intros (x & Hx & Hl); exists x; by rewrite ?list_elem_of_In in *.
Qed.

Lemma length_flat_map_const {A B} (f : A → list B) (l : list A) n :
  (∀ x, length (f x) = n) → length (flat_map f l) = n * length l.
Proof.
  intros Hf. induction l as [|x l IH]; simpl; [lia|].
  rewrite length_app, Hf, IH. lia.
Qed.

Lemma filter_filter_same {A} (P : A → Prop) `{!∀ x, Decision (P x)} (l : list A) :
  filter P (filter P l) = filter P l.
Proof.
  induction l as [|x l IH]; [done|]. rewrite filter_cons.
  destruct (decide (P x)); [|done]. by rewrite filter_cons_True, IH.
Qed.
End observers.

Section page_parts.
Context `{printer : MarkdownPrinter}.

Lemma headings_index_head level :
  headings level index_head_spec =
  if level =? 1 then [Header 1 "Backstage Core Utility APIs" None] else [].
Proof.
  unfold headings, index_head_spec. cbn [List.filter is_heading].
  rewrite Nat.eqb_sym. by destruct (level =? 1).
Qed.

Lemma headings_index_entry level api :
  headings level (index_entry_spec api) =
  if level =? 3 then [Header 3 (apiDisplayName api) (Some (ApiDoc.id api))] else [].
Proof.
  unfold headings, index_entry_spec. cbn [List.filter is_heading].
  rewrite Nat.eqb_sym. by destruct (level =? 3).
Qed.

Lemma headings_page_head level apiType :
  headings level (page_head_spec apiType) =
  if level =? 1 then [Header 1 (InterfaceInfo.name apiType) None] else [].
Proof.
  unfold headings, page_head_spec. cbn [List.filter is_heading].
  rewrite Nat.eqb_sym. by destruct (level =? 1).
Qed.

Lemma headings_member_calls level m :
  headings level (member_calls_spec m) =
  if level =? 3
  then [Header 3 (entry_heading_text (EField m)) (Some (FieldInfo.path m))]
  else [].
Proof.
  unfold member_calls_spec, headings. cbn [List.filter is_heading].
  rewrite List.filter_app. fold (headings level (map Text (FieldInfo.docs m))).
  rewrite headings_map_none by done. rewrite Nat.eqb_sym.
  by destruct (level =? 3).
Qed.

Lemma headings_types_section level ms deps :
  headings level (types_section_spec ms deps) =
  if level =? 3
  then map (λ type, Header 3 (TypeInfo.name type) (Some (TypeInfo.path type)))
           (sorted_array (sortSelector TypeInfo.name) deps)
  else [].
Proof.
  unfold types_section_spec.
  rewrite (headings_flat_map level _
    (λ type, if level =? 3
             then [Header 3 (TypeInfo.name type) (Some (TypeInfo.path type))]
             else [])).
  - destruct (level =? 3); [apply flat_map_singleton|apply flat_map_nil].
  - intros type. rewrite headings_app, headings_type_calls, headings_referenced_by.
    apply app_nil_r.
Qed.

Lemma texts_member_calls m : texts (member_calls_spec m) = FieldInfo.docs m.
Proof.
  unfold member_calls_spec. cbn [texts omap list_omap].
  change (omap ?f ?l) with (texts l).
  by rewrite texts_app, texts_map_Text, app_nil_r.
Qed.

Lemma codes_member_calls m : codes (member_calls_spec m) = [EField m].
Proof.
  unfold member_calls_spec. cbn [codes omap list_omap].
  change (omap ?f ?l) with (codes l).
  by rewrite codes_app, codes_map_Text.
Qed.

Lemma texts_type_calls type : texts (type_calls_spec type) = TypeInfo.docs type.
Proof.
  unfold type_calls_spec. cbn [texts omap list_omap].
  change (omap ?f ?l) with (texts l).
  by rewrite texts_app, texts_map_Text, app_nil_r.
Qed.

Lemma codes_type_calls type : codes (type_calls_spec type) = [EType type].
Proof.
  unfold type_calls_spec. cbn [codes omap list_omap].
  change (omap ?f ?l) with (codes l).
  by rewrite codes_app, codes_map_Text.
Qed.

Lemma texts_referenced_by es : texts (referenced_by_spec es) = [].
Proof. by destruct es. Qed.

Lemma codes_referenced_by es : codes (referenced_by_spec es) = [].
Proof. by destruct es. Qed.

Lemma texts_codes_types_section ms deps :
  codes (types_section_spec ms deps) =
    map EType (sorted_array (sortSelector TypeInfo.name) deps) ∧
  texts (types_section_spec ms deps) =
    flat_map TypeInfo.docs (sorted_array (sortSelector TypeInfo.name) deps).
Proof.
  unfold types_section_spec. split.
  - rewrite <-flat_map_singleton. apply codes_flat_map. intros type.
    by rewrite codes_app, codes_type_calls, codes_referenced_by.
  - apply texts_flat_map. intros type.
    by rewrite texts_app, texts_type_calls, texts_referenced_by, app_nil_r.
Qed.

Lemma texts_codes_implementer_block (links : list string) :
  codes (implementer_block_spec links) = [] ∧
  texts (implementer_block_spec links) =
    match links with [_] => [] | _ => map (λ link, "  - " +:+ link) links end.
Proof.
  assert (Hm : ∀ l : list string,
    codes (map (λ link, Text ("  - " +:+ link)) l) = [] ∧
    texts (map (λ link, Text ("  - " +:+ link)) l) = map (λ link, "  - " +:+ link) l).
  { intros l. rewrite <-(map_map (λ link, "  - " +:+ link) Text).
    by rewrite codes_map_Text, texts_map_Text. }
  destruct links as [|l1 [|l2 l]]; try done.
  unfold implementer_block_spec, multi_block_spec. cbn [texts codes omap list_omap].
  apply (Hm (l1 :: l2 :: l)).
Qed.

Lemma implementer_link_in_block ad (l : list ApiDoc.t) :
  ad ∈ l →
  Paragraph ["The following Utility API implements this type: " +:+
             implementer_link_spec ad]
    ∈ implementer_block_spec (map implementer_link_spec l) ∨
  Text ("  - " +:+ implementer_link_spec ad)
    ∈ implementer_block_spec (map implementer_link_spec l).
Proof.
  intros Had. destruct l as [|a1 [|a2 l]].
  - by apply elem_of_nil in Had.
  - apply list_elem_of_singleton in Had as ->. left. by left.
  - right.
    change (implementer_block_spec (map implementer_link_spec (a1 :: a2 :: l)))
      with (multi_block_spec (map implementer_link_spec (a1 :: a2 :: l))).
    unfold multi_block_spec. rewrite map_map. right.
    rewrite list_elem_of_In.
    apply (in_map (λ x, Text ("  - " +:+ implementer_link_spec x))).
    by apply list_elem_of_In.
Qed.

Lemma elem_of_types_section ms deps type c :
  type ∈ deps →
  c ∈ type_calls_spec type ++
      referenced_by_spec (filter (references_spec type) (entries_spec ms deps)) →
  c ∈ types_section_spec ms deps.
Proof.
  intros Htype Hc. unfold types_section_spec. apply elem_of_flat_map_iff.
  exists type. split; [|done].
  by rewrite (sorted_array_perm TypeInfo.name deps).
Qed.

Lemma elem_of_page_members σ apiType apiDocs c :
  c ∈ flat_map member_calls_spec (InterfaceInfo.members apiType) →
  c ∈ (printInterface apiType apiDocs σ).1.
Proof.
  intros Hc. rewrite printInterface_layout. cbn [fst].
  rewrite !elem_of_app. right; right. right. rewrite elem_of_app. by left.
Qed.

Lemma elem_of_page_types σ apiType apiDocs c :
  c ∈ types_section_spec (InterfaceInfo.members apiType)
        (σ !!! InterfaceInfo.dependentTypes apiType) →
  σ !!! InterfaceInfo.dependentTypes apiType ≠ [] →
  c ∈ (printInterface apiType apiDocs σ).1.
Proof.
  intros Hc Hne. rewrite printInterface_layout. cbn [fst].
  rewrite !elem_of_app. right; right. right. rewrite elem_of_app. right.
  unfold supporting_types_spec.
  destruct (σ !!! InterfaceInfo.dependentTypes apiType); [done|].
  by do 2 right.
Qed.

(** The page reads the store only through the array of the type. *)
Lemma printInterface_store_ext σ1 σ2 apiType apiDocs :
  σ1 !!! InterfaceInfo.dependentTypes apiType =
  σ2 !!! InterfaceInfo.dependentTypes apiType →
  (printInterface apiType apiDocs σ1).1 = (printInterface apiType apiDocs σ2).1.
Proof. intros Heq. rewrite !printInterface_layout. cbn [fst]. by rewrite Heq. Qed.
End page_parts.

Section more_properties.
Context `{printer : MarkdownPrinter}.

(** ** The index page *)

(** X1.  The index page has two calls of introduction and four calls per
    entry; for the empty collection it is the introduction alone. *)
Theorem printApiIndex_length σ apiDocs :
  length (printApiIndex apiDocs σ).1 = 2 + 4 * length apiDocs.
Proof.
  rewrite printApiIndex_layout. cbn [fst].
  by rewrite length_app, (length_flat_map_const _ _ 4).
Qed.

(** X2.  The index of two collections put end to end is the index of the
    first followed by the entries of the index of the second. *)
Theorem printApiIndex_app σ l1 l2 :
  (printApiIndex (l1 ++ l2) σ).1 =
  (printApiIndex l1 σ).1 ++ drop 2 (printApiIndex l2 σ).1.
Proof.
  rewrite !printApiIndex_layout. cbn [fst].
  by rewrite flat_map_app, <-app_assoc.
Qed.

(** X3.  Entry [i] of the collection occupies the calls from [2 + 4 * i]
    on: its sub-heading shows the display name, the next call is its
    description, and its last call is the source link, labelled with the
    raw name. *)
Theorem printApiIndex_entry σ apiDocs i api :
  apiDocs !! i = Some api →
  let out := (printApiIndex apiDocs σ).1 in
  out !! (2 + 4 * i) = Some (Header 3 (apiDisplayName api) (Some (ApiDoc.id api))) ∧
  out !! (2 + 4 * i + 1) = Some (Paragraph [ApiDoc.description api]) ∧
  out !! (2 + 4 * i + 3) =
    Some (Paragraph ["ApiRef: " +:+ srcLink (ApiDoc.src api) (Some (ApiDoc.name api))]).
Proof.
  intros Hi out. unfold out. rewrite printApiIndex_layout. cbn [fst].
  assert (Hp : ∀ j, j < 4 →
    (index_head_spec ++ flat_map index_entry_spec apiDocs) !! (2 + 4 * i + j)
    = index_entry_spec api !! j).
  { intros j Hj. rewrite lookup_app_r by (simpl; lia).
    replace (2 + 4 * i + j - length index_head_spec) with (4 * i + j)
      by (simpl; lia).
    by apply lookup_flat_map_4. }
  split; [|split].
  - rewrite <-(Nat.add_0_r (2 + 4 * i)). by rewrite Hp by lia.
  - by rewrite Hp by lia.
  - by rewrite Hp by lia.
Qed.

(** X4.  The index page consists of headings and paragraphs only: one
    title of level one without anchor, the sub-headings of level three,
    no heading of any other level, no raw text line and no code block. *)
Theorem printApiIndex_calls σ apiDocs :
  let out := (printApiIndex apiDocs σ).1 in
  (∀ level,
     headings level out =
     if level =? 1 then [Header 1 "Backstage Core Utility APIs" None]
     else if level =? 3
          then map (λ api, Header 3 (apiDisplayName api) (Some (ApiDoc.id api))) apiDocs
          else []) ∧
  texts out = [] ∧
  codes out = [].
Proof.
  intros out. unfold out. rewrite printApiIndex_layout. cbn [fst].
  split; [|split].
  - intros level. rewrite headings_app, headings_index_head.
    rewrite (headings_flat_map level _ _ _ (headings_index_entry level)).
    destruct (level =? 1) eqn:H1.
    + apply Nat.eqb_eq in H1 as ->. cbn [Nat.eqb]. by rewrite flat_map_nil.
    + destruct (level =? 3); [by rewrite flat_map_singleton|by rewrite flat_map_nil].
  - rewrite texts_app, (texts_flat_map _ (λ _, [])) by done. by rewrite flat_map_nil.
  - rewrite codes_app, (codes_flat_map _ (λ _, [])) by done. by rewrite flat_map_nil.
Qed.

(** ** The interface page and the collection *)

(** X5.  The page of a type is the page rendered from its implementers
    alone: entries that do not list the type's name leave no trace,
    wherever they stand in the collection. *)
Theorem printInterface_only_implementers σ apiType apiDocs :
  printInterface apiType apiDocs σ =
  printInterface apiType (filter (implements_spec apiType) apiDocs) σ.
Proof. by rewrite !printInterface_layout, filter_filter_same. Qed.

(** X6.  The printer never reads the identifier of the type: changing it
    changes neither the page nor the store. *)
Theorem printInterface_ignores_id σ apiType apiDocs id :
  printInterface (with_id apiType id) apiDocs σ = printInterface apiType apiDocs σ.
Proof. by rewrite !printInterface_layout. Qed.

(** X7.  Every entry of the collection that implements the type gets its
    link on the page, inline or as a list item, and the header link in
    its target is built from the very text and anchor of the entry's
    sub-heading on the index page of the same collection. *)
Theorem implementer_links_resolve σ apiType apiDocs ad :
  ad ∈ apiDocs → implements_spec apiType ad →
  let link :=
    "[" +:+ ApiDoc.name ad +:+ "](" +:+
    (indexLink +:+ headerLink (apiDisplayName ad) (ApiDoc.id ad)) +:+ ")" in
  (Paragraph ["The following Utility API implements this type: " +:+ link]
     ∈ (printInterface apiType apiDocs σ).1 ∨
   Text ("  - " +:+ link) ∈ (printInterface apiType apiDocs σ).1) ∧
  Header 3 (apiDisplayName ad) (Some (ApiDoc.id ad)) ∈ (printApiIndex apiDocs σ).1.
Proof.
  intros Had Himpl link. split.
  - rewrite printInterface_layout. cbn [fst].
    assert (Hin : ad ∈ filter (implements_spec apiType) apiDocs)
      by by apply list_elem_of_filter.
    destruct (implementer_link_in_block _ _ Hin) as [H|H]; [left|right].
    all: rewrite elem_of_app; right; rewrite elem_of_app; by left.
  - rewrite printApiIndex_layout. cbn [fst]. rewrite elem_of_app. right.
    apply elem_of_flat_map_iff. exists ad. split; [done|]. by left.
Qed.

(** ** The interface page: what it shows *)

(** X8.  The headings of an interface page, level by level: the name of
    the type at level one, the section headings at level two, and at
    level three the members in input order (callable ones with the
    invocation marker) followed by the dependent types in sorted order,
    each anchored by its path.  There is no heading of another level,
    and no anchor above level three. *)
Theorem printInterface_headings σ apiType apiDocs level :
  let deps := σ !!! InterfaceInfo.dependentTypes apiType in
  headings level (printInterface apiType apiDocs σ).1 =
  match level with
  | 1 => [Header 1 (InterfaceInfo.name apiType) None]
  | 2 => Header 2 "Members" None ::
         match deps with [] => [] | _ => [Header 2 "Supporting types" None] end
  | 3 => map (λ m, Header 3 (FieldInfo.name m +:+
                              match FieldInfo.type m with method => "()" | prop => "" end)
                             (Some (FieldInfo.path m)))
             (InterfaceInfo.members apiType) ++
         map (λ type, Header 3 (TypeInfo.name type) (Some (TypeInfo.path type)))
             (sorted_array (sortSelector TypeInfo.name) deps)
  | _ => []
  end.
Proof.
  intros deps. rewrite printInterface_layout. cbn [fst]. fold deps.
  rewrite !headings_app, headings_page_head, headings_implementer_block.
  change (Header 2 "Members" None :: ?l) with ([Header 2 "Members" None] ++ l).
  rewrite !headings_app.
  rewrite (headings_flat_map level _ _ _ (headings_member_calls level)).
  assert (Hsup : headings level
      (supporting_types_spec (InterfaceInfo.members apiType) deps) =
    (if level =? 2
     then match deps with [] => [] | _ => [Header 2 "Supporting types" None] end
     else []) ++
    (if level =? 3
     then map (λ type, Header 3 (TypeInfo.name type) (Some (TypeInfo.path type)))
              (sorted_array (sortSelector TypeInfo.name) deps)
     else [])).
  { unfold supporting_types_spec. destruct deps as [|d deps'].
    - by destruct (level =? 2), (level =? 3).
    - change (Header 2 "Supporting types" None :: ?p :: ?l)
        with ([Header 2 "Supporting types" None; p] ++ l).
      rewrite headings_app, headings_types_section.
      unfold headings. cbn [List.filter is_heading].
      rewrite Nat.eqb_sym. by destruct (level =? 2). }
  rewrite Hsup. unfold entry_heading_text.
  destruct level as [|[|[|[|level]]]]; cbn [Nat.eqb headings List.filter is_heading app];
    rewrite ?flat_map_nil, ?flat_map_singleton, ?app_nil_r; done.
Qed.

(** X9.  The members are shown in input order: every member gets one
    sub-heading anchored by its path, its documentation lines as raw
    text, line by line, and its code once.  Nothing else is emitted, and
    the store is left as it was. *)
Theorem addInterfaceMembers_calls σ apiType :
  let members := InterfaceInfo.members apiType in
  let out := (addInterfaceMembers apiType σ).1.2 in
  headings 3 out =
    map (λ m, Header 3 (FieldInfo.name m +:+
                        match FieldInfo.type m with method => "()" | prop => "" end)
                       (Some (FieldInfo.path m))) members ∧
  texts out = flat_map FieldInfo.docs members ∧
  codes out = map EField members ∧
  length out = length (flat_map FieldInfo.docs members) + 2 * length members ∧
  (addInterfaceMembers apiType σ).2 = σ.
Proof.
  intros members out. unfold out. rewrite addInterfaceMembers_layout. cbn [fst snd].
  fold members. split; [|split; [|split; [|split]]].
  - rewrite (headings_flat_map 3 _ _ _ (headings_member_calls 3)).
    apply flat_map_singleton.
  - apply texts_flat_map, texts_member_calls.
  - rewrite (codes_flat_map _ _ _ codes_member_calls). apply flat_map_singleton.
  - induction members as [|m ms IH]; [done|]. cbn [flat_map].
    rewrite !length_app, IH. unfold member_calls_spec.
    cbn [length]. rewrite length_app, length_map. cbn [length]. lia.
  - done.
Qed.

(** X10.  An interface page shows the code of every member, in input
    order, and then of every dependent type, in sorted order, each
    exactly once.  Its raw text lines are the items of the implementer
    list (none when there is exactly one implementer), then the
    documentation lines of the members, then those of the dependent
    types. *)
Theorem printInterface_texts_codes σ apiType apiDocs :
  let members := InterfaceInfo.members apiType in
  let types := sorted_array (sortSelector TypeInfo.name)
                 (σ !!! InterfaceInfo.dependentTypes apiType) in
  let links := map implementer_link_spec (filter (implements_spec apiType) apiDocs) in
  let out := (printInterface apiType apiDocs σ).1 in
  codes out = map EField members ++ map EType types ∧
  texts out =
    match links with
    | [_] => []
    | _ => map (λ link, "  - " +:+ link) links
    end ++ flat_map FieldInfo.docs members ++ flat_map TypeInfo.docs types.
Proof.
  intros members types links out. unfold out.
  rewrite printInterface_layout. cbn [fst]. fold members links.
  destruct (texts_codes_implementer_block links) as [Hc Ht].
  assert (Hs :
    codes (supporting_types_spec members (σ !!! InterfaceInfo.dependentTypes apiType)) =
      map EType types ∧
    texts (supporting_types_spec members (σ !!! InterfaceInfo.dependentTypes apiType)) =
      flat_map TypeInfo.docs types).
  { unfold types, supporting_types_spec.
    destruct (σ !!! InterfaceInfo.dependentTypes apiType) as [|d deps]; [done|].
    apply (texts_codes_types_section members (d :: deps)). }
  destruct Hs as [Hsc Hst].
  change (Header 2 "Members" None :: ?l) with ([Header 2 "Members" None] ++ l).
  split.
  - rewrite !codes_app, Hc, Hsc.
    by rewrite (codes_flat_map _ _ _ codes_member_calls), flat_map_singleton.
  - rewrite !texts_app, Ht, Hst.
    by rewrite (texts_flat_map _ _ _ texts_member_calls).
Qed.

(** X11.  The links of a "Referenced by" paragraph resolve on the page
    itself: when an entry of the interface references a dependent type
    of the interface, the paragraph is on the page, and so is a
    sub-heading anchored by the path the link of the entry is built
    from.  The heading of a callable member carries the invocation
    marker, which the link's text does not. *)
Theorem referenced_by_links_resolve σ apiType apiDocs type e :
  let members := InterfaceInfo.members apiType in
  let deps := σ !!! InterfaceInfo.dependentTypes apiType in
  let referrers := filter (references_spec type) (entries_spec members deps) in
  let out := (printInterface apiType apiDocs σ).1 in
  type ∈ deps →
  e ∈ entries_spec members deps →
  references_spec type e →
  e ∈ referrers ∧
  Paragraph ["Referenced by: " +:+ join ", " (map usage_link_spec referrers) +:+ "."]
    ∈ out ∧
  Header 3 (entry_heading_text e) (Some (entry_path e)) ∈ out.
Proof.
  intros members deps referrers out Htype He Href.
  assert (Hne : deps ≠ [])
    by (intros Hd; rewrite Hd in Htype; by apply elem_of_nil in Htype).
  assert (Hin : e ∈ referrers) by by apply list_elem_of_filter.
  split; [done|]. split.
  - apply elem_of_page_types; [|done].
    apply (elem_of_types_section _ _ type); [done|].
    rewrite elem_of_app. right. fold members deps referrers.
    destruct referrers; [by apply elem_of_nil in Hin|]. by left.
  - unfold entries_spec in He. apply elem_of_app in He as [He|He].
    + apply elem_of_map_iff in He as (m & -> & Hm).
      apply elem_of_page_members, elem_of_flat_map_iff.
      exists m. split; [done|]. by left.
    + apply elem_of_map_iff in He as (t & -> & Ht).
      apply elem_of_page_types; [|done].
      apply (elem_of_types_section _ _ t); [done|].
      rewrite elem_of_app. left. by left.
Qed.

(** ** The store *)


(** X13.  Pages can be rendered one after the other in any order: a page
    rendered from the store another rendering has left is the page
    rendered from the original store, for every type whose array is in
    the original store. *)
Theorem printInterface_after_render σ apiType apiDocs apiType' apiDocs' :
  InterfaceInfo.dependentTypes apiType' ∈ dom σ →
  (printInterface apiType' apiDocs' (printInterface apiType apiDocs σ).2).1 =
  (printInterface apiType' apiDocs' σ).1.
Proof.
  intros Hdom. apply printInterface_store_ext.
  rewrite (printInterface_layout apiType). cbn [snd].
  destruct (σ !!! InterfaceInfo.dependentTypes apiType); [done|].
  apply lookup_total_insert_ne. intros Heq. rewrite <-Heq in Hdom.
  by apply is_fresh in Hdom.
Qed.

(** ** Display names, again *)

(** X14.  The display name is the raw name, or the raw name without its
    last six code units when these spell the marker: it is never longer
    than the raw name, and it is empty exactly for the empty name and for
    the name that is the marker alone. *)
Theorem apiDisplayName_prefix api :
  let name := ApiDoc.name api in
  let display := apiDisplayName api in
  ((name = display +:+ "ApiRef" ∧ ends_with "ApiRef" name = true) ∨
   (name = display ∧ ends_with "ApiRef" name = false)) ∧
  String.length display ≤ String.length name ∧
  (display = "" ↔ name = "" ∨ name = "ApiRef").
Proof.
  intros name display. unfold display, apiDisplayName. fold name.
  destruct (ends_with "ApiRef" name) eqn:He.
  - apply ends_with_true in He as [p Hp]. rewrite Hp, replace_end_app.
    split; [by left|]. split.
    + rewrite string_length_app. lia.
    + split.
      * intros ->. by right.
      * intros [Hn|Hn].
        -- apply (f_equal String.length) in Hn.
           rewrite string_length_app in Hn. simpl in Hn. lia.
        -- apply (f_equal String.length) in Hn.
           rewrite string_length_app in Hn. simpl in Hn.
           destruct p; [done|]. simpl in Hn. lia.
  - rewrite (replace_end_keep _ _ He). split; [by right|]. split; [done|].
    split; [by left|]. intros [Hn|Hn]; [done|]. by rewrite Hn in He.
Qed.
End more_properties.

(** * The sample model *)

#[local] Existing Instance Sample.printer.

(** The claims as first worded, on the sample model. *)

(** C1.  Foo has identifier t1; the entry OtherApiRef lists a type that
    is also named Foo but has identifier t2.  The page of Foo links to it
    all the same: the links are not those of the entries that list the
    identifier t1. *)
Lemma printInterface_implementers_not_by_id :
  ¬ ∃ rest,
      (printInterface Sample.Foo [Sample.fooApi; Sample.otherFooApi] ∅).1 =
      page_head_spec Sample.Foo ++
      implementer_block_spec
        (map implementer_link_spec
           (filter (implements_by_id_spec Sample.Foo)
                   [Sample.fooApi; Sample.otherFooApi])) ++
      Header 2 "Members" None :: rest.
Proof. intros [rest Hrest]. vm_compute in Hrest. discriminate Hrest. Qed.

(** C2.  A name that ends with the marker twice keeps one of them:
    appending the marker to FooApiRef changes the display name. *)
Lemma apiDisplayName_doubled_marker :
  apiDisplayName (renamed Sample.fooApi ("FooApiRef" +:+ "ApiRef")) ≠
  apiDisplayName (renamed Sample.fooApi "FooApiRef").
Proof. intros Heq. vm_compute in Heq. discriminate Heq. Qed.

(** C3.  An entry without interfaces gets the singular phrasing. *)
Lemma printApiIndex_no_interface_singular :
  ¬ ∀ p,
      implemented_paragraph (printApiIndex [Sample.bareApi] ∅).1 0 = Some p →
      (singular_phrasing p = true ↔ length (ApiDoc.interfaceInfos Sample.bareApi) = 1).
Proof.
  intros Hclaim. destruct (Hclaim _ eq_refl) as [Hsingular _].
  specialize (Hsingular eq_refl). discriminate Hsingular.
Qed.

(** The pluralization of the one-entry index of FooApiRef. *)
Lemma printApiIndex_pluralization_witness :
  [Sample.fooApi] !! 0 = Some Sample.fooApi ∧
  ∃ p, implemented_paragraph (printApiIndex [Sample.fooApi] ∅).1 0 = Some p ∧
       (singular_phrasing p = true ↔ length (ApiDoc.interfaceInfos Sample.fooApi) ≤ 1) ∧
       (plural_phrasing p = true ↔ 1 < length (ApiDoc.interfaceInfos Sample.fooApi)).
Proof.
  split; [reflexivity|].
  apply (printApiIndex_pluralization ∅ [Sample.fooApi] 0 Sample.fooApi).
  reflexivity.
Defined.

(** The scenario of one entry FooApiRef implementing Foo: the index shows
    the heading Foo and the singular phrasing, the page of Foo shows one
    link labelled FooApiRef. *)
Example index_of_FooApiRef :
  (printApiIndex [Sample.fooApi] ∅).1 =
  index_head_spec ++
  [Header 3 "Foo" (Some "x");
   Paragraph ["d"];
   Paragraph ["Implemented type: [Foo](./Foo.md)"];
   Paragraph ["ApiRef: [FooApiRef](src/apis.ts)"]].
Proof. reflexivity. Qed.

Example page_of_Foo :
  (printInterface Sample.Foo [Sample.fooApi; Sample.bareApi] ∅).1 =
  [Header 1 "Foo" None;
   Paragraph ["The Foo type is defined at [src/apis.ts](src/apis.ts)."];
   Paragraph ["The following Utility API implements this type: [FooApiRef](./README.md#Foo-x)"];
   Header 2 "Members" None].
Proof. reflexivity. Qed.

(** Two implementers are listed in the order of the collection. *)
Example page_of_Foo_two_implementers :
  (printInterface Sample.Foo [Sample.barApi; Sample.fooApi] ∅).1 =
  [Header 1 "Foo" None;
   Paragraph ["The Foo type is defined at [src/apis.ts](src/apis.ts)."];
   Paragraph ["The following Utility APIs implement this type:"];
   Text "  - [BarApiRef](./README.md#Bar-y)";
   Text "  - [FooApiRef](./README.md#Foo-x)";
   Header 2 "Members" None].
Proof. reflexivity. Qed.

(** Zebra and Mango link to Apple; the page lists the three types by
    name and says so under Apple. *)
Example page_of_Foo_supporting_types :
  headings 3 (printInterface Sample.Foo [] Sample.store).1 =
    [Header 3 "Apple" (Some "types.Apple");
     Header 3 "Mango" (Some "types.Mango");
     Header 3 "Zebra" (Some "types.Zebra")] ∧
  Paragraph ["Referenced by: [Zebra](#Zebra-types.Zebra), [Mango](#Mango-types.Mango)."]
    ∈ (printInterface Sample.Foo [] Sample.store).1.
Proof. split; [reflexivity|]. vm_compute. do 9 right. left. Qed.

(** Sorting the array of the sample store itself, without the copy, would
    reorder it: the store does record a mutation. *)
Example Array_sort_in_place_mutates :
  (Array_sort (sortSelector TypeInfo.name) 1%positive Sample.store).2 !!! 1%positive
  ≠ Sample.store !!! 1%positive.
Proof. intros Heq. vm_compute in Heq. discriminate Heq. Qed.

(** The further properties on the sample model. *)

(** The entry of FooApiRef in the one-entry index. *)
Lemma printApiIndex_entry_witness :
  [Sample.fooApi] !! 0 = Some Sample.fooApi ∧
  (printApiIndex [Sample.fooApi] ∅).1 !! (2 + 4 * 0) =
    Some (Header 3 (apiDisplayName Sample.fooApi) (Some (ApiDoc.id Sample.fooApi))) ∧
  (printApiIndex [Sample.fooApi] ∅).1 !! (2 + 4 * 0 + 1) =
    Some (Paragraph [ApiDoc.description Sample.fooApi]) ∧
  (printApiIndex [Sample.fooApi] ∅).1 !! (2 + 4 * 0 + 3) =
    Some (Paragraph ["ApiRef: " +:+
                     srcLink (ApiDoc.src Sample.fooApi) (Some (ApiDoc.name Sample.fooApi))]).
Proof.
  split; [reflexivity|].
  apply (printApiIndex_entry ∅ [Sample.fooApi] 0 Sample.fooApi).
  reflexivity.
Defined.

(** BarApiRef implements Foo next to FooApiRef: its link is an item of
    the list, and its heading is on the index. *)
Lemma implementer_links_resolve_witness :
  Sample.barApi ∈ [Sample.barApi; Sample.fooApi] ∧
  implements_spec Sample.Foo Sample.barApi ∧
  (Paragraph ["The following Utility API implements this type: " +:+
              implementer_link_spec Sample.barApi]
     ∈ (printInterface Sample.Foo [Sample.barApi; Sample.fooApi] ∅).1 ∨
   Text ("  - " +:+ implementer_link_spec Sample.barApi)
     ∈ (printInterface Sample.Foo [Sample.barApi; Sample.fooApi] ∅).1) ∧
  Header 3 (apiDisplayName Sample.barApi) (Some (ApiDoc.id Sample.barApi))
    ∈ (printApiIndex [Sample.barApi; Sample.fooApi] ∅).1.
Proof.
  assert (Hin : Sample.barApi ∈ [Sample.barApi; Sample.fooApi]) by left.
  assert (Himpl : implements_spec Sample.Foo Sample.barApi).
  { unfold implements_spec. right. left. reflexivity. }
  split; [exact Hin|]. split; [exact Himpl|].
  exact (implementer_links_resolve ∅ Sample.Foo [Sample.barApi; Sample.fooApi]
           Sample.barApi Hin Himpl).
Defined.

(** Zebra links to Apple: the page of Foo says so under Apple and has the
    heading of Zebra. *)
Lemma referenced_by_links_resolve_witness :
  let apple := Sample.type_named "Apple" [] in
  let zebra := Sample.type_named "Zebra" ["Apple"] in
  let referrers :=
    filter (references_spec apple)
           (entries_spec (InterfaceInfo.members Sample.Foo) Sample.zebra_apple_mango) in
  apple ∈ Sample.store !!! InterfaceInfo.dependentTypes Sample.Foo ∧
  EType zebra ∈ entries_spec (InterfaceInfo.members Sample.Foo)
                  (Sample.store !!! InterfaceInfo.dependentTypes Sample.Foo) ∧
  references_spec apple (EType zebra) ∧
  EType zebra ∈ referrers ∧
  Paragraph ["Referenced by: " +:+ join ", " (map usage_link_spec referrers) +:+ "."]
    ∈ (printInterface Sample.Foo [] Sample.store).1 ∧
  Header 3 (entry_heading_text (EType zebra)) (Some (entry_path (EType zebra)))
    ∈ (printInterface Sample.Foo [] Sample.store).1.
Proof.
  intros apple zebra referrers.
  assert (Htype : apple ∈ Sample.store !!! InterfaceInfo.dependentTypes Sample.Foo).
  { right. left. }
  assert (He : EType zebra ∈
                 entries_spec (InterfaceInfo.members Sample.Foo)
                   (Sample.store !!! InterfaceInfo.dependentTypes Sample.Foo)).
  { left. }
  assert (Href : references_spec apple (EType zebra)).
  { unfold references_spec. left. reflexivity. }
  split; [exact Htype|]. split; [exact He|]. split; [exact Href|].
  exact (referenced_by_links_resolve Sample.store Sample.Foo [] apple (EType zebra)
           Htype He Href).
Defined.

(** The page of Foo, rendered a second time from the store the first
    rendering has left. *)
Lemma printInterface_after_render_witness :
  InterfaceInfo.dependentTypes Sample.Foo ∈ dom Sample.store ∧
  (printInterface Sample.Foo [Sample.fooApi]
     (printInterface Sample.Foo [Sample.fooApi] Sample.store).2).1 =
  (printInterface Sample.Foo [Sample.fooApi] Sample.store).1.
Proof.
  assert (Hdom : InterfaceInfo.dependentTypes Sample.Foo ∈ dom Sample.store).
  { apply elem_of_dom. exists Sample.zebra_apple_mango. reflexivity. }
  split; [exact Hdom|].
  exact (printInterface_after_render Sample.store Sample.Foo [Sample.fooApi]
           Sample.Foo [Sample.fooApi] Hdom).
Defined.
